(** * PrimateToPrimate: registration of sulcal coordinates between two primates

    A shallow embedding of [PrimateToPrimate.py]: the projection of the
    rectangle coordinates on the sphere ([SquareToSphere]), the construction
    of the affine transformations between corresponding axes
    ([Affine_Transform]) and their application to a texture ([rescale]).

    Coordinates are floats in the script.  They are modelled by the rationals
    [Q] with exact arithmetic, compared up to [==]; a division by zero, which
    yields [inf] or [nan] on numpy floats and an exception on Python floats,
    has no rational value and stops the model with [ZeroDivisionError].
    Rounding is not in this model: a statement is made on it only where it
    survives rounding, and where a bound is lost to rounding the cell is
    computed again on binary64 floats ([Sphere.long_cell_binary64]).
    numpy arrays are lists, read with [l !! i] and updated with [<[i:=x]> l];
    an index out of range raises [IndexError] as in Python. *)

From Stdlib Require Import QArith Qfield Lqa Lia Sorted Floats.
From stdpp Require Import base option list.

(** ** Exceptions and the error monad *)

Inductive exn : Set :=
  | AssertionError
  | IndexError
  | ZeroDivisionError
  | TypeError.

Inductive result (A : Type) : Type :=
  | Ok (a : A)
  | Raise (e : exn).
Arguments Ok {A} a.
Arguments Raise {A} e.

#[global] Instance result_ret : MRet result := @Ok.
#[global] Instance result_bind : MBind result := fun A B f m =>
  match m with
  | Ok a => f a
  | Raise e => Raise e
  end.

(** [l[i]] for a non-negative index. *)
Definition idx {A : Type} (l : list A) (i : nat) : result A :=
  match l !! i with
  | Some x => Ok x
  | None => Raise IndexError
  end.

(** [x / y] *)
Definition div (x y : Q) : result Q :=
  if Qeq_bool y 0 then Raise ZeroDivisionError else Ok (x / y)%Q.

(** [x < y] on floats *)
Definition Qlt_bool (x y : Q) : bool := negb (Qle_bool y x).

(** [np.zeros(n)] *)
Definition zeros (n : nat) : list Q := replicate n 0%Q.

(** [np.concatenate(arrays, axis)] with an array of floats where the axis
    goes: numpy wants an integer there and raises [TypeError] before it looks
    at [arrays]. *)
Definition np_concatenate (arrays : list Q) (axis : list Q) : result (list Q) :=
  Raise TypeError.

(** [r[j] *= a] and [r[j] += b]: read the cell, then store the new value. *)
Definition imul (r : list Q) (j : nat) (a : Q) : result (list Q) :=
  x ← idx r j; Ok (<[j := (x * a)%Q]> r).

Definition iadd (r : list Q) (j : nat) (b : Q) : result (list Q) :=
  x ← idx r j; Ok (<[j := (x + b)%Q]> r).

(** ** [rescale] *)

Module Rescale.
Section Loops.
(** The locals of [rescale] that the loops only read. *)
Variable affine : list (Q * Q).
Variable new_intervals : list Q.
Variable N : nat.

(** The inner [while] for a fixed [i].  The coordinates that [j] has not
    passed yet are carried as [todo], so that [sulci[j]] is the head of
    [todo] and the empty list is [j = N], where [sulci[j]] raises.  The
    condition is evaluated left to right with the short-circuit of [and]. *)
Fixpoint inner_while (i : nat) (todo : list Q) (j : nat) (rescaled : list Q)
  : result (list Q * nat * list Q) :=
  match todo with
  | [] => Raise IndexError
  | v :: todo' =>
      lo ← idx new_intervals i;
      if Qle_bool lo v then
        hi ← idx new_intervals (i + 1);
        if Qlt_bool v hi then
          row ← idx affine i;
          r1 ← imul rescaled j (fst row);
          row' ← idx affine i;
          r2 ← iadd r1 j (snd row');
          inner_while i todo' (j + 1) r2
        else Ok (todo, j, rescaled)
      else Ok (todo, j, rescaled)
  end.

(** [while i < N: ...; i += 1], with [n = N - i] rounds left. *)
Fixpoint outer_while (n : nat) (i : nat) (todo : list Q) (j : nat)
    (rescaled : list Q) : result (list Q * nat * list Q) :=
  match n with
  | O => Ok (todo, j, rescaled)
  | S n' =>
      '(todo', j', r') ← inner_while i todo j rescaled;
      outer_while n' (i + 1) todo' j' r'
  end.

(** [for l in range(j, N)], the range given as the list of its values. *)
Fixpoint last_for (ls : list nat) (rescaled : list Q) : result (list Q) :=
  match ls with
  | [] => Ok rescaled
  | l :: ls' =>
      row ← idx affine N;
      r1 ← imul rescaled l (fst row);
      row' ← idx affine N;
      r2 ← iadd r1 l (snd row');
      last_for ls' r2
  end.
End Loops.

(** The lines after [new_intervals = ...], from [N = len(sulci)] to
    [return rescaled], for the list bound to [new_intervals]. *)
Definition loops (sulci : list Q) (affine : list (Q * Q)) (new_intervals : list Q)
  : result (list Q) :=
  let N := length sulci in
  let rescaled := zeros N in
  '(_, j, rescaled') ← outer_while affine new_intervals N 0 sulci 0 rescaled;
  last_for affine N (seq j (N - j)) rescaled'.
End Rescale.

(** The call [np.concatenate([0], intervals)] hands [[0]] over as the arrays
    and [intervals] as the axis. *)
Definition rescale (sulci : list Q) (affine : list (Q * Q)) (intervals : list Q)
  : result (list Q) :=
  if negb (length affine =? length intervals + 1)%nat then Raise AssertionError
  else
    new_intervals ← np_concatenate [0%Q] intervals;
    Rescale.loops sulci affine new_intervals.

(** ** [SquareToSphere] *)

Module Sphere.
(** [for i in range(n)] over the longitudes: [longS[i] *= 360 / L], then
    [longS[i] += (src[i] < 0) * 360], where [src] is the rectangle list the
    copy [longS] was taken from. *)
Fixpoint long_for (L : Q) (src : list Q) (range : list nat) (longS : list Q)
  : result (list Q) :=
  match range with
  | [] => Ok longS
  | i :: range' =>
      c ← div 360 L;
      r1 ← imul longS i c;
      x ← idx src i;
      r2 ← iadd r1 i (if Qlt_bool x 0 then 360 else 0)%Q;
      long_for L src range' r2
  end.

(** [for i in range(n)] over the latitudes: when
    [lat_min < src[i] < lat_max], [latS[i] *= range_lat / l] and
    [latS[i] += 30]. *)
Fixpoint lat_for (lat_min lat_max range_lat l : Q) (src : list Q)
    (range : list nat) (latS : list Q) : result (list Q) :=
  match range with
  | [] => Ok latS
  | i :: range' =>
      y ← idx src i;
      if Qlt_bool lat_min y && Qlt_bool y lat_max then
        c ← div range_lat l;
        r1 ← imul latS i c;
        r2 ← iadd r1 i 30%Q;
        lat_for lat_min lat_max range_lat l src range' r2
      else lat_for lat_min lat_max range_lat l src range' latS
  end.

(** What one round of each loop leaves in the cell that held [x] or [y]. *)
Definition long_cell (L x : Q) : Q :=
  (x * (360 / L) + (if Qlt_bool x 0 then 360 else 0))%Q.

Definition lat_cell (lat_min lat_max range_lat l y : Q) : Q :=
  if Qlt_bool lat_min y && Qlt_bool y lat_max
  then (y * (range_lat / l) + 30)%Q else y.

End Sphere.

(** The default value of the parameter [lat_sphere]. *)
Definition lat_sphere_default : Q * Q := (30, 150)%Q.

(** [dimP] is [(L, l)], [sulciP] is [(longitudes, latitudes)] and stands for
    the two-element list [[sulciP[0], sulciP[1]]]. *)
Definition SquareToSphere (dimP1 dimP2 : Q * Q) (sulciP1 sulciP2 : list Q * list Q)
    (lat_sphere : Q * Q) : result (list Q * list Q * list Q * list Q) :=
  let Nlong_P1 := length (fst sulciP1) in
  let Nlat_P1 := length (snd sulciP1) in
  let Nlong_P2 := length (fst sulciP2) in
  let Nlat_P2 := length (fst sulciP2) in
  let '(LP1, lP1) := dimP1 in
  let '(LP2, lP2) := dimP2 in
  let '(lat_min, lat_max) := lat_sphere in
  let range_lat := (lat_max - lat_min)%Q in
  let longS_P1 := fst sulciP1 in
  let latS_P1 := snd sulciP1 in
  let longS_P2 := fst sulciP2 in
  let latS_P2 := snd sulciP2 in
  longS_P1 ← Sphere.long_for LP1 (fst sulciP1) (seq 0 Nlong_P1) longS_P1;
  latS_P1 ← Sphere.lat_for lat_min lat_max range_lat lP1 (snd sulciP1)
              (seq 0 Nlat_P1) latS_P1;
  longS_P2 ← Sphere.long_for LP2 (fst sulciP2) (seq 0 Nlong_P2) longS_P2;
  latS_P2 ← Sphere.lat_for lat_min lat_max range_lat lP2 (snd sulciP2)
              (seq 0 Nlat_P2) latS_P2;
  Ok (longS_P1, latS_P1, longS_P2, latS_P2).

(** ** [Affine_Transform] *)

Module Affine.
(** [a[ks]] for an array of indices [ks]. *)
Fixpoint take_at (a : list Q) (ks : list nat) : result (list Q) :=
  match ks with
  | [] => Ok []
  | k :: ks' => x ← idx a k; xs ← take_at a ks'; Ok (x :: xs)
  end.

(** [t[i][0] = x] and [t[i][1] = x] on an array of rows of two cells. *)
Definition set0 (t : list (Q * Q)) (i : nat) (x : Q) : result (list (Q * Q)) :=
  row ← idx t i; Ok (<[i := (x, snd row)]> t).

Definition set1 (t : list (Q * Q)) (i : nat) (x : Q) : result (list (Q * Q)) :=
  row ← idx t i; Ok (<[i := (fst row, x)]> t).

(** [s[i]] where [s] is a cell of a one-dimensional array: a numpy scalar
    has no index ("invalid index to scalar variable"). *)
Definition scalar_idx (s : Q) (i : nat) : result Q := Raise IndexError.

(** [for i in range(1, Nlong)] *)
Fixpoint long_for (longP1 longP2 : list Q) (range : list nat)
    (long_transform : list (Q * Q)) : result (list (Q * Q)) :=
  match range with
  | [] => Ok long_transform
  | i :: range' =>
      y1 ← idx longP2 (i + 1);
      y0 ← idx longP2 i;
      x1 ← idx longP1 (i + 1);
      x0 ← idx longP1 i;
      a ← div (y1 - y0) (x1 - x0);
      t1 ← set0 long_transform i a;
      y ← idx longP2 i;
      x ← idx longP1 i;
      row ← idx t1 i;
      t2 ← set1 t1 i (y - x * fst row)%Q;
      long_for longP1 longP2 range' t2
  end.

(** [for i in range(1, Nlat)]; the divisor reads [latP1[1][i]]. *)
Fixpoint lat_for (latP1 latP2 : list Q) (range : list nat)
    (lat_transform : list (Q * Q)) : result (list (Q * Q)) :=
  match range with
  | [] => Ok lat_transform
  | i :: range' =>
      y1 ← idx latP2 (i + 1);
      y0 ← idx latP2 i;
      x1 ← idx latP1 (i + 1);
      s ← idx latP1 1;
      x0 ← scalar_idx s i;
      a ← div (y1 - y0) (x1 - x0);
      t1 ← set0 lat_transform i a;
      y ← idx latP2 i;
      x ← idx latP1 i;
      row ← idx t1 i;
      t2 ← set1 t1 i (y - x * fst row)%Q;
      lat_for latP1 latP2 range' t2
  end.
End Affine.

(** [long_corr] and [lat_corr] are arrays of couples of indices; the column
    [long_corr[:, 0]] is [fst <$> long_corr]. *)
Definition Affine_Transform (sulciP1 sulciP2 : list Q * list Q)
    (long_corr lat_corr : list (nat * nat))
  : result (list (Q * Q) * list (Q * Q)) :=
  let Nlong := length long_corr in
  let Nlat := length lat_corr in
  let long_transform := replicate Nlong (0, 0)%Q in
  let lat_transform := replicate Nlat (0, 0)%Q in
  longP1 ← Affine.take_at (fst sulciP1) (fst <$> long_corr);
  latP1 ← Affine.take_at (snd sulciP1) (fst <$> lat_corr);
  longP2 ← Affine.take_at (fst sulciP2) (snd <$> long_corr);
  latP2 ← Affine.take_at (snd sulciP2) (snd <$> lat_corr);
  n ← idx (fst sulciP2) 0;
  d ← idx (fst sulciP1) 0;
  a ← div n d;
  long_transform ← Affine.set0 long_transform 0 a;
  n ← idx (snd sulciP2) 0;
  d ← idx (snd sulciP1) 0;
  a ← div n d;
  lat_transform ← Affine.set0 lat_transform 0 a;
  long_transform ← Affine.long_for longP1 longP2 (seq 1 (Nlong - 1)) long_transform;
  lat_transform ← Affine.lat_for latP1 latP2 (seq 1 (Nlat - 1)) lat_transform;
  Ok (long_transform, lat_transform).

(** ** The segments used by the loops of [rescale]

    The same sweep as the loops of [rescale], keeping for every position of
    [sulci] the index [i] of the row of [affine] its cell is updated with,
    instead of the cell.  The positions left to the last loop get [N]. *)

Module Sweep.
Section Select.
Variable new_intervals : list Q.


End Select.



End Sweep.

(** * Properties *)

(** ** The error monad, the comparisons and the arrays *)

(** One step of a computation whose head is known. *)
Ltac run := cbn [mbind result_bind].

Lemma bind_Ok {A B} (m : result A) (f : A -> result B) (b : B) :
  m ≫= f = Ok b <-> exists a, m = Ok a /\ f a = Ok b.
Proof.
  destruct m as [a|e]; simpl; split.
  - intros H. exists a. auto.
  - intros (a' & Ha & H). congruence.
  - discriminate.
  - intros (a' & Ha & _). discriminate.
Qed.

Lemma idx_Ok {A} (l : list A) (i : nat) (x : A) :
  idx l i = Ok x <-> l !! i = Some x.
Proof. unfold idx. destruct (l !! i); split; congruence. Qed.

Lemma idx_Some {A} (l : list A) (i : nat) (x : A) :
  l !! i = Some x -> idx l i = Ok x.
Proof. apply idx_Ok. Qed.

Lemma idx_None {A} (l : list A) (i : nat) :
  l !! i = None -> idx l i = Raise IndexError.
Proof. unfold idx. intros ->. reflexivity. Qed.

Lemma idx_raise {A} (l : list A) (i : nat) (e : exn) :
  idx l i = Raise e -> e = IndexError.
Proof. unfold idx. destruct (l !! i); congruence. Qed.

Lemma Qlt_bool_iff (x y : Q) : Qlt_bool x y = true <-> (x < y)%Q.
Proof.
  unfold Qlt_bool. rewrite negb_true_iff. split.
  - intros H. apply Qnot_le_lt. intros Hle. apply Qle_bool_iff in Hle. congruence.
  - intros H. destruct (Qle_bool y x) eqn:E; [|reflexivity].
    apply Qle_bool_iff in E. exfalso. exact (Qlt_not_le _ _ H E).
Qed.

Lemma Qlt_bool_false (x y : Q) : Qlt_bool x y = false <-> ~ (x < y)%Q.
Proof.
  rewrite <- Qlt_bool_iff. destruct (Qlt_bool x y); split; congruence.
Qed.

Lemma div_Ok (x y : Q) : ~ (y == 0)%Q -> div x y = Ok (x / y)%Q.
Proof.
  intros H. unfold div. destruct (Qeq_bool y 0) eqn:E; [|reflexivity].
  apply Qeq_bool_iff in E. contradiction.
Qed.

Lemma div_Ok_inv (x y q : Q) : div x y = Ok q -> q = (x / y)%Q.
Proof. unfold div. destruct (Qeq_bool y 0); [discriminate|]. congruence. Qed.

(** The cell right after the prefix [done] is the one at index
    [length done]. *)
Lemma imul_at (done rest : list Q) (x a : Q) (j : nat) :
  j = length done ->
  imul (done ++ x :: rest) j a = Ok (done ++ (x * a)%Q :: rest).
Proof.
  intros ->. unfold imul.
  rewrite (idx_Some _ _ x) by (apply list_lookup_middle; auto).
  simpl. f_equal. rewrite insert_app_r_alt by lia.
  replace (length done - length done)%nat with 0%nat by lia. reflexivity.
Qed.

Lemma iadd_at (done rest : list Q) (x b : Q) (j : nat) :
  j = length done ->
  iadd (done ++ x :: rest) j b = Ok (done ++ (x + b)%Q :: rest).
Proof.
  intros ->. unfold iadd.
  rewrite (idx_Some _ _ x) by (apply list_lookup_middle; auto).
  simpl. f_equal. rewrite insert_app_r_alt by lia.
  replace (length done - length done)%nat with 0%nat by lia. reflexivity.
Qed.

(** ** The loops of [rescale] and the sweep

    With as many rows in [affine] as boundaries in [new_intervals], the loops
    of [rescale] fail exactly where the sweep fails, and fill the cells with
    the rows the sweep names. *)

Section Simulation.
Variable affine : list (Q * Q).
Variable new_intervals : list Q.
Hypothesis Hlen : length affine = length new_intervals.




End Simulation.

(** ** What the sweep returns *)

Section SweepFacts.
Variable new_intervals : list Q.





End SweepFacts.




(** ** The loops of [SquareToSphere] *)

Lemma long_for_cells (L : Q) (done rest : list Q) :
  ~ (L == 0)%Q ->
  Sphere.long_for L (done ++ rest) (seq (length done) (length rest))
    ((Sphere.long_cell L <$> done) ++ rest) =
  Ok (Sphere.long_cell L <$> (done ++ rest)).
Proof.
  intros HL. revert done. induction rest as [|x rest IH]; intros done.
  - cbn. rewrite !app_nil_r. reflexivity.
  - cbn [length seq Sphere.long_for].
    rewrite (div_Ok _ _ HL). run.
    rewrite imul_at by (rewrite length_fmap; reflexivity). run.
    rewrite (idx_Some _ _ x) by (apply list_lookup_middle; reflexivity).
    run.
    rewrite iadd_at by (rewrite length_fmap; reflexivity). run.
    specialize (IH (done ++ [x])).
    rewrite length_app, fmap_app, <- !app_assoc in IH.
    cbn [length app fmap list_fmap] in IH.
    rewrite Nat.add_1_r in IH. exact IH.
Qed.

(** The latitude loop over the first [k] cells. *)
Lemma lat_for_cells (lat_min lat_max range_lat l : Q) (k : nat) (done rest : list Q) :
  ~ (l == 0)%Q -> (k <= length rest)%nat ->
  Sphere.lat_for lat_min lat_max range_lat l (done ++ rest) (seq (length done) k)
    ((Sphere.lat_cell lat_min lat_max range_lat l <$> done) ++ rest) =
  Ok ((Sphere.lat_cell lat_min lat_max range_lat l <$> (done ++ take k rest))
      ++ drop k rest).
Proof.
  intros Hl. revert done rest. induction k as [|k IH]; intros done rest Hk.
  - cbn. rewrite take_0, drop_0, app_nil_r. reflexivity.
  - destruct rest as [|y rest]; [cbn in Hk; lia|]. cbn [length] in Hk.
    cbn [seq Sphere.lat_for].
    rewrite (idx_Some _ _ y) by (apply list_lookup_middle; reflexivity).
    run.
    specialize (IH (done ++ [y]) rest).
    rewrite length_app, fmap_app, <- !app_assoc in IH.
    cbn [length app fmap list_fmap] in IH.
    rewrite Nat.add_1_r in IH.
    rewrite firstn_cons, skipn_cons.
    destruct (Qlt_bool lat_min y && Qlt_bool y lat_max) eqn:E.
    + rewrite (div_Ok _ _ Hl). run.
      rewrite imul_at by (rewrite length_fmap; reflexivity). run.
      rewrite iadd_at by (rewrite length_fmap; reflexivity). run.
      unfold Sphere.lat_cell at 2 in IH. rewrite E in IH. apply IH. lia.
    + unfold Sphere.lat_cell at 2 in IH. rewrite E in IH. apply IH. lia.
Qed.


(** Conversely, what the latitude loop returns when it returns. *)
Lemma lat_for_Ok_inv (lat_min lat_max range_lat l : Q) (k : nat)
    (done rest r : list Q) :
  Sphere.lat_for lat_min lat_max range_lat l (done ++ rest) (seq (length done) k)
    ((Sphere.lat_cell lat_min lat_max range_lat l <$> done) ++ rest) = Ok r ->
  (k <= length rest)%nat /\
  r = (Sphere.lat_cell lat_min lat_max range_lat l <$> (done ++ take k rest))
      ++ drop k rest.
Proof.
  revert done rest. induction k as [|k IH]; intros done rest H.
  - cbn in H. injection H as <-. split; [lia|].
    rewrite take_0, drop_0, app_nil_r. reflexivity.
  - cbn [seq Sphere.lat_for] in H.
    destruct rest as [|y rest].
    { rewrite idx_None in H; [discriminate|].
      apply lookup_ge_None. rewrite app_nil_r. lia. }
    rewrite (idx_Some _ _ y) in H by (apply list_lookup_middle; reflexivity).
    cbn [mbind result_bind] in H.
    specialize (IH (done ++ [y]) rest).
    rewrite length_app, fmap_app, <- !app_assoc in IH.
    cbn [length app fmap list_fmap] in IH.
    rewrite Nat.add_1_r in IH.
    rewrite firstn_cons, skipn_cons. cbn [length].
    destruct (Qlt_bool lat_min y && Qlt_bool y lat_max) eqn:E.
    + apply bind_Ok in H as (c & Hc & H). apply div_Ok_inv in Hc. subst c.
      rewrite imul_at in H by (rewrite length_fmap; reflexivity).
      cbn [mbind result_bind] in H.
      rewrite iadd_at in H by (rewrite length_fmap; reflexivity).
      cbn [mbind result_bind] in H.
      unfold Sphere.lat_cell at 2 in IH. rewrite E in IH.
      destruct (IH H) as [Hk ->]. split; [lia|reflexivity].
    + unfold Sphere.lat_cell at 2 in IH. rewrite E in IH.
      destruct (IH H) as [Hk ->]. split; [lia|reflexivity].
Qed.

Lemma SquareToSphere_Ok_inv (LP1 lP1 LP2 lP2 : Q) (sulciP1 sulciP2 : list Q * list Q)
    (lat_min lat_max : Q) (longS_P1 latS_P1 longS_P2 latS_P2 : list Q) :
  SquareToSphere (LP1, lP1) (LP2, lP2) sulciP1 sulciP2 (lat_min, lat_max) =
    Ok (longS_P1, latS_P1, longS_P2, latS_P2) ->
  latS_P1 = Sphere.lat_cell lat_min lat_max (lat_max - lat_min) lP1 <$> snd sulciP1 /\
  (length (fst sulciP2) <= length (snd sulciP2))%nat /\
  latS_P2 = (Sphere.lat_cell lat_min lat_max (lat_max - lat_min) lP2
               <$> take (length (fst sulciP2)) (snd sulciP2))
            ++ drop (length (fst sulciP2)) (snd sulciP2).
Proof.
  unfold SquareToSphere. intros H.
  apply bind_Ok in H as (lo1 & _ & H). apply bind_Ok in H as (la1 & H1 & H).
  apply bind_Ok in H as (lo2 & _ & H). apply bind_Ok in H as (la2 & H2 & H).
  injection H as _ <- _ <-.
  apply (lat_for_Ok_inv _ _ _ _ _ [] (snd sulciP1)) in H1 as [_ ->].
  apply (lat_for_Ok_inv _ _ _ _ _ [] (snd sulciP2)) in H2 as [Hn ->].
  cbn [app]. rewrite firstn_all, skipn_all, app_nil_r. auto.
Qed.


(** ** The loops of [Affine_Transform] *)

Lemma take_at_length (a : list Q) (ks : list nat) (xs : list Q) :
  Affine.take_at a ks = Ok xs -> length xs = length ks.
Proof.
  revert xs. induction ks as [|k ks IH]; intros xs.
  - intros [= <-]. reflexivity.
  - cbn [Affine.take_at]. intros H.
    apply bind_Ok in H as (x & _ & H). apply bind_Ok in H as (xs' & Hxs & H).
    injection H as <-. cbn. f_equal. apply IH. exact Hxs.
Qed.

(** Every round [i] of the longitude loop reads [longP2[i + 1]]. *)
Lemma long_for_Ok_bound (longP1 longP2 : list Q) (range : list nat)
    (t t' : list (Q * Q)) :
  Affine.long_for longP1 longP2 range t = Ok t' ->
  Forall (fun i => (i + 1 < length longP2)%nat) range.
Proof.
  revert t. induction range as [|i range IH]; intros t H; [constructor|].
  cbn [Affine.long_for] in H.
  apply bind_Ok in H as (y1 & Hy1 & H).
  repeat (apply bind_Ok in H as (? & _ & H)).
  constructor; [|eapply IH; exact H].
  apply idx_Ok in Hy1. eapply lookup_lt_Some. exact Hy1.
Qed.

(** No round of the latitude loop gets past [latP1[1][i]]. *)
Lemma lat_for_Ok_nil (latP1 latP2 : list Q) (range : list nat)
    (t t' : list (Q * Q)) :
  Affine.lat_for latP1 latP2 range t = Ok t' -> range = [].
Proof.
  destruct range as [|i range]; [reflexivity|]. cbn [Affine.lat_for]. intros H.
  do 4 (apply bind_Ok in H as (? & _ & H)).
  apply bind_Ok in H as (? & Hs & _). discriminate.
Qed.

(** [Affine_Transform] returns only for one couple of longitudes and one
    couple of latitudes, with one row each: the round [Nlong - 1] reads
    [longP2[Nlong]], and every round on the latitudes reads [latP1[1][i]]. *)
Lemma Affine_Transform_Ok_inv (sulciP1 sulciP2 : list Q * list Q)
    (long_corr lat_corr : list (nat * nat)) (long_transform lat_transform : list (Q * Q)) :
  Affine_Transform sulciP1 sulciP2 long_corr lat_corr
    = Ok (long_transform, lat_transform) ->
  length long_corr = 1%nat /\ length lat_corr = 1%nat /\
  exists x1 x2 y1 y2,
    fst sulciP1 !! 0%nat = Some x1 /\ fst sulciP2 !! 0%nat = Some x2 /\
    snd sulciP1 !! 0%nat = Some y1 /\ snd sulciP2 !! 0%nat = Some y2 /\
    long_transform = [((x2 / x1)%Q, 0%Q)] /\ lat_transform = [((y2 / y1)%Q, 0%Q)].
Proof.
  unfold Affine_Transform. intros H.
  apply bind_Ok in H as (longP1 & HlongP1 & H).
  apply bind_Ok in H as (latP1 & HlatP1 & H).
  apply bind_Ok in H as (longP2 & HlongP2 & H).
  apply bind_Ok in H as (latP2 & HlatP2 & H).
  apply bind_Ok in H as (x2 & Hx2 & H). apply bind_Ok in H as (x1 & Hx1 & H).
  apply bind_Ok in H as (a1 & Ha1 & H). apply bind_Ok in H as (t1 & Ht1 & H).
  apply bind_Ok in H as (y2 & Hy2 & H). apply bind_Ok in H as (y1 & Hy1 & H).
  apply bind_Ok in H as (a2 & Ha2 & H). apply bind_Ok in H as (t2 & Ht2 & H).
  apply bind_Ok in H as (t3 & Ht3 & H). apply bind_Ok in H as (t4 & Ht4 & H).
  injection H as <- <-.
  apply take_at_length in HlongP2. rewrite length_fmap in HlongP2.
  apply long_for_Ok_bound in Ht3 as Hb. apply lat_for_Ok_nil in Ht4 as Hnil.
  assert (Hlong : length long_corr = 1%nat).
  { destruct long_corr as [|c0 [|c1 cs]]; [discriminate|reflexivity|exfalso].
    cbn [length] in *.
    assert (Hin : (S (length cs) + 1 < length longP2)%nat).
    { rewrite Forall_forall in Hb. apply Hb. apply elem_of_seq. lia. }
    lia. }
  assert (Hlat : length lat_corr = 1%nat).
  { destruct lat_corr as [|c0 [|c1 cs]]; [discriminate|reflexivity|discriminate]. }
  rewrite Hlong, Hlat in *. cbn [Nat.sub seq] in Ht3, Ht4.
  injection Ht3 as <-. injection Ht4 as <-.
  cbn in Ht1, Ht2. injection Ht1 as <-. injection Ht2 as <-.
  apply div_Ok_inv in Ha1, Ha2. subst a1 a2.
  apply idx_Ok in Hx1, Hx2, Hy1, Hy2.
  split; [reflexivity|]. split; [reflexivity|].
  exists x1, x2, y1, y2. auto 10.
Qed.

(** * The claims *)

(** ** [rescale] *)

(** Past the assertion [rescale] stops at [np.concatenate]. *)
Lemma rescale_raises (sulci : list Q) (affine : list (Q * Q)) (intervals : list Q) :
  length affine = (length intervals + 1)%nat /\
    rescale sulci affine intervals = Raise TypeError \/
  length affine <> (length intervals + 1)%nat /\
    rescale sulci affine intervals = Raise AssertionError.
Proof.
  unfold rescale.
  destruct (Nat.eq_dec (length affine) (length intervals + 1)) as [E|E].
  - left. split; [exact E|]. apply Nat.eqb_eq in E. rewrite E. reflexivity.
  - right. split; [exact E|]. apply Nat.eqb_neq in E. rewrite E. reflexivity.
Qed.

(** C1, not met by the code.  On an input that passes the assertion the call
    [np.concatenate([0], intervals)] raises [TypeError] before any cell is
    computed: the value 25, of the segment of scale 2 and offset 10, is not
    mapped to 25 * 2 + 10 = 60, nor to anything else. *)
Theorem rescale_raises_TypeError :
  rescale [25; 100]%Q [(3, 0); (2, 10); (2, 10)]%Q [10; 40]%Q = Raise TypeError.
Proof. reflexivity. Qed.

(** C2, not met by the code.  [rescale] is not total: whatever the input, it
    raises [AssertionError] or [TypeError] and returns no array. *)
Theorem rescale_never_returns (sulci : list Q) (affine : list (Q * Q))
    (intervals : list Q) :
  exists e, rescale sulci affine intervals = Raise e /\
            (e = AssertionError \/ e = TypeError).
Proof.
  destruct (rescale_raises sulci affine intervals) as [[_ H]|[_ H]];
    eexists; (split; [exact H|]); auto.
Qed.

(** C9.  [rescale] raises [AssertionError], the script's
    [SegmentCountMismatch], exactly when [affine] does not have one more row
    than there are boundaries; and it returns an array only when it has. *)
Theorem rescale_assertion (sulci : list Q) (affine : list (Q * Q)) (intervals : list Q) :
  (rescale sulci affine intervals = Raise AssertionError <->
   length affine <> (length intervals + 1)%nat) /\
  (forall out, rescale sulci affine intervals = Ok out ->
               length affine = (length intervals + 1)%nat).
Proof.
  destruct (rescale_raises sulci affine intervals) as [[E H]|[E H]]; rewrite H.
  - split; [|auto]. split; [discriminate|contradiction].
  - split; [split; auto|]. discriminate.
Qed.



(** ** [SquareToSphere] *)




(** C7, not met by the code.  A latitude inside the band gets the literal 30
    added after the scaling, not [band_min]: for the band [[20, 160]], the
    rectangle length 70 and the latitude 50, the code gives
    50 * 140 / 70 + 30 = 130 and not 50 * 140 / 70 + 20 = 120.  Whatever the
    band, the latitudes of the first species that are returned are
    [y * (band_max - band_min) / l + 30] inside the band and [y] elsewhere. *)
Theorem SquareToSphere_latitude_adds_30 :
  (SquareToSphere (100, 70)%Q (100, 70)%Q ([10], [50])%Q ([10], [50])%Q (20, 160)%Q
     = Ok ([3600 # 100], [9100 # 70], [3600 # 100], [9100 # 70])%Q /\
   (9100 # 70 == 50 * (160 - 20) / 70 + 30)%Q /\
   ~ (9100 # 70 == 50 * (160 - 20) / 70 + 20)%Q) /\
  forall (LP1 lP1 LP2 lP2 : Q) (sulciP1 sulciP2 : list Q * list Q)
         (lat_min lat_max : Q),
    match SquareToSphere (LP1, lP1) (LP2, lP2) sulciP1 sulciP2 (lat_min, lat_max) with
    | Ok (_, latS_P1, _, _) =>
        Forall2 (fun y y' =>
            ((lat_min < y)%Q /\ (y < lat_max)%Q ->
             (y' == y * (lat_max - lat_min) / lP1 + 30)%Q) /\
            (~ ((lat_min < y)%Q /\ (y < lat_max)%Q) -> y' = y))
          (snd sulciP1) latS_P1
    | Raise _ => True
    end.
Proof.
  split.
  - split; [reflexivity|]. split; [reflexivity|].
    intros H. vm_compute in H. discriminate H.
  - intros LP1 lP1 LP2 lP2 sulciP1 sulciP2 lat_min lat_max.
    destruct (SquareToSphere (LP1, lP1) (LP2, lP2) sulciP1 sulciP2 (lat_min, lat_max))
      as [[[[lo1 la1] lo2] la2]|e] eqn:H; [|exact I].
    apply SquareToSphere_Ok_inv in H as (-> & _).
    apply Forall2_fmap_r, Forall_Forall2_diag, Forall_forall. intros y _.
    unfold compose, Sphere.lat_cell.
    destruct (Qlt_bool lat_min y) eqn:E1; [destruct (Qlt_bool y lat_max) eqn:E2|];
      cbn [andb].
    + apply Qlt_bool_iff in E1, E2.
      split; [intros _; unfold Qdiv; ring|]. intros Hn. exfalso. auto.
    + apply Qlt_bool_false in E2. split; [|reflexivity]. intros [_ H2]. contradiction.
    + apply Qlt_bool_false in E1. split; [|reflexivity]. intros [H1 _]. contradiction.
Qed.

(** C8, not met by the code.  The loop on the latitudes of the second species
    counts the longitudes of that species ([Nlat_P2 = len(sulciP2[0])]).  With
    the same input for both species, one longitude and two latitudes, the
    second latitude is scaled for the first species and left at 45 for the
    second; with two longitudes and one latitude the loop reads past the
    latitudes.  Whatever the input, the second species is returned with no
    more longitudes than latitudes, and with its latitudes past the number of
    its longitudes as they were given. *)
Theorem SquareToSphere_species_differ :
  (SquareToSphere (100, 50)%Q (100, 50)%Q ([10], [40; 45])%Q ([10], [40; 45])%Q
       (30, 150)%Q
     = Ok ([3600 # 100], [6300 # 50; 6900 # 50], [3600 # 100], [6300 # 50; 45])%Q /\
   ~ (6900 # 50 == 45)%Q /\
   SquareToSphere (100, 50)%Q (100, 50)%Q ([10; -20], [40])%Q ([10; -20], [40])%Q
       (30, 150)%Q
     = Raise IndexError) /\
  forall (LP1 lP1 LP2 lP2 : Q) (sulciP1 sulciP2 : list Q * list Q)
         (lat_min lat_max : Q),
    match SquareToSphere (LP1, lP1) (LP2, lP2) sulciP1 sulciP2 (lat_min, lat_max) with
    | Ok (_, _, _, latS_P2) =>
        (length (fst sulciP2) <= length (snd sulciP2))%nat /\
        drop (length (fst sulciP2)) latS_P2
        = drop (length (fst sulciP2)) (snd sulciP2)
    | Raise _ => True
    end.
Proof.
  split.
  - split; [reflexivity|]. split; [|reflexivity].
    intros H. vm_compute in H. discriminate H.
  - intros LP1 lP1 LP2 lP2 sulciP1 sulciP2 lat_min lat_max.
    destruct (SquareToSphere (LP1, lP1) (LP2, lP2) sulciP1 sulciP2 (lat_min, lat_max))
      as [[[[lo1 la1] lo2] la2]|e] eqn:H; [|exact I].
    apply SquareToSphere_Ok_inv in H as (_ & Hn & ->).
    split; [exact Hn|].
    apply drop_app_length'. rewrite length_fmap, length_take. lia.
Qed.

(** ** [Affine_Transform] *)

(** C3, not met by the code.  The scale of the first row is the quotient of
    the first coordinates of the two species ([sulciP2[0][0] / sulciP1[0][0]]),
    not of the first corresponding ones: when the only correspondence is
    between the second longitudes, 10 and 30, the code gives 20 / 5 = 4 and
    not 30 / 10 = 3.  Whatever the input, a first row that is returned has
    that quotient as scale and 0 as offset. *)
Theorem Affine_Transform_first_row_uses_first_sulci :
  (Affine_Transform ([5; 10], [40])%Q ([20; 30], [60])%Q [(1, 1)%nat] [(0, 0)%nat]
     = Ok ([(20 # 5, 0)], [(60 # 40, 0)])%Q /\
   (20 # 5 == 4)%Q /\ ~ (20 # 5 == 30 / 10)%Q) /\
  forall (sulciP1 sulciP2 : list Q * list Q) (long_corr lat_corr : list (nat * nat)),
    match Affine_Transform sulciP1 sulciP2 long_corr lat_corr with
    | Ok (long_transform, _) =>
        exists x1 x2, fst sulciP1 !! 0%nat = Some x1 /\
          fst sulciP2 !! 0%nat = Some x2 /\
          long_transform !! 0%nat = Some ((x2 / x1)%Q, 0%Q)
    | Raise _ => True
    end.
Proof.
  split.
  - split; [reflexivity|]. split; [reflexivity|].
    intros H. vm_compute in H. discriminate H.
  - intros sulciP1 sulciP2 long_corr lat_corr.
    destruct (Affine_Transform sulciP1 sulciP2 long_corr lat_corr)
      as [[lt la]|e] eqn:H; [|exact I].
    apply Affine_Transform_Ok_inv in H
      as (_ & _ & x1 & x2 & y1 & y2 & H1 & H2 & _ & _ & -> & _).
    exists x1, x2. auto.
Qed.

(** C4, not met by the code.  With two corresponding longitudes the loop
    reaches [i = 1] and reads [longP2[2]], past the end: no row is built for
    the interval between the two anchors.  The same holds for every input with
    two or more corresponding longitudes: an exception is raised. *)
Theorem Affine_Transform_two_anchors_raise :
  Affine_Transform ([10; 40], [40])%Q ([30; 90], [60])%Q
      [(0, 0)%nat; (1, 1)%nat] [(0, 0)%nat]
    = Raise IndexError /\
  forall (sulciP1 sulciP2 : list Q * list Q) (c0 c1 : nat * nat)
         (long_corr lat_corr : list (nat * nat)),
    exists e, Affine_Transform sulciP1 sulciP2 (c0 :: c1 :: long_corr) lat_corr
              = Raise e.
Proof.
  split; [reflexivity|].
  intros sulciP1 sulciP2 c0 c1 long_corr lat_corr.
  destruct (Affine_Transform sulciP1 sulciP2 (c0 :: c1 :: long_corr) lat_corr)
    as [[lt la]|e] eqn:H; [|exists e; reflexivity].
  apply Affine_Transform_Ok_inv in H as (Hlen & _). discriminate Hlen.
Qed.

(** C5, not met by the code.  Whenever [Affine_Transform] returns, each of the
    two transformations has as many rows as there are correspondences, [N] and
    not [N + 1]. *)
Theorem Affine_Transform_row_count (sulciP1 sulciP2 : list Q * list Q)
    (long_corr lat_corr : list (nat * nat)) (long_transform lat_transform : list (Q * Q)) :
  Affine_Transform sulciP1 sulciP2 long_corr lat_corr
    = Ok (long_transform, lat_transform) ->
  length long_transform = length long_corr /\
  length lat_transform = length lat_corr.
Proof.
  intros H.
  apply Affine_Transform_Ok_inv in H
    as (Hlong & Hlat & x1 & x2 & y1 & y2 & _ & _ & _ & _ & -> & ->).
  rewrite Hlong, Hlat. split; reflexivity.
Qed.

(** One anchor per axis gives one row per axis. *)
Lemma Affine_Transform_row_count_witness :
  Affine_Transform ([10], [40])%Q ([30], [60])%Q [(0, 0)%nat] [(0, 0)%nat]
    = Ok ([(30 # 10, 0)], [(60 # 40, 0)])%Q /\
  length [(30 # 10, 0)]%Q = 1%nat.
Proof.
  split; [reflexivity|].
  destruct (Affine_Transform_row_count ([10], [40])%Q ([30], [60])%Q
              [(0, 0)%nat] [(0, 0)%nat] [(30 # 10, 0)]%Q [(60 # 40, 0)]%Q eq_refl)
    as [H _].
  exact H.
Defined.

(** * Further properties of the three functions *)

Lemma take_at_raise (a : list Q) (ks : list nat) (e : exn) :
  Affine.take_at a ks = Raise e -> e = IndexError.
Proof.
  induction ks as [|k ks IH]; [discriminate|]. cbn [Affine.take_at].
  destruct (idx a k) as [x|e0] eqn:Hx; [|intros [= <-]; eapply idx_raise, Hx].
  run. destruct (Affine.take_at a ks) as [xs|e0]; [discriminate|].
  intros [= <-]. apply IH. reflexivity.
Qed.

Lemma take_at_Ok_bound (a : list Q) (ks : list nat) (xs : list Q) :
  Affine.take_at a ks = Ok xs -> Forall (fun k => (k < length a)%nat) ks.
Proof.
  revert xs. induction ks as [|k ks IH]; intros xs H; [constructor|].
  cbn [Affine.take_at] in H.
  apply bind_Ok in H as (x & Hx & H). apply bind_Ok in H as (xs' & Hxs & _).
  constructor; [|eapply IH, Hxs].
  apply idx_Ok in Hx. eapply lookup_lt_Some, Hx.
Qed.

Lemma take_at_out_of_range (a : list Q) (ks : list nat) :
  Exists (fun k => (length a <= k)%nat) ks ->
  Affine.take_at a ks = Raise IndexError.
Proof.
  intros HE. destruct (Affine.take_at a ks) as [xs|e] eqn:H.
  - exfalso. apply take_at_Ok_bound in H. apply Exists_exists in HE as (k & Hk & Hge).
    rewrite Forall_forall in H. specialize (H k Hk). lia.
  - f_equal. eapply take_at_raise, H.
Qed.

(** X6.  A correspondence that names an index past the end of the list it
    refers to, for either species and either axis, makes [Affine_Transform]
    raise [IndexError]. *)
Theorem Affine_Transform_index_out_of_range (sulciP1 sulciP2 : list Q * list Q)
    (long_corr lat_corr : list (nat * nat)) :
  Exists (fun c => (length (fst sulciP1) <= fst c)%nat) long_corr \/
  Exists (fun c => (length (snd sulciP1) <= fst c)%nat) lat_corr \/
  Exists (fun c => (length (fst sulciP2) <= snd c)%nat) long_corr \/
  Exists (fun c => (length (snd sulciP2) <= snd c)%nat) lat_corr ->
  Affine_Transform sulciP1 sulciP2 long_corr lat_corr = Raise IndexError.
Proof.
  intros H. unfold Affine_Transform.
  destruct (Affine.take_at (fst sulciP1) (fst <$> long_corr)) as [longP1|e] eqn:H1;
    [|run; f_equal; eapply take_at_raise, H1].
  run.
  destruct (Affine.take_at (snd sulciP1) (fst <$> lat_corr)) as [latP1|e] eqn:H2;
    [|run; f_equal; eapply take_at_raise, H2].
  run.
  destruct (Affine.take_at (fst sulciP2) (snd <$> long_corr)) as [longP2|e] eqn:H3;
    [|run; f_equal; eapply take_at_raise, H3].
  run.
  destruct (Affine.take_at (snd sulciP2) (snd <$> lat_corr)) as [latP2|e] eqn:H4;
    [|run; f_equal; eapply take_at_raise, H4].
  exfalso.
  apply take_at_Ok_bound in H1, H2, H3, H4.
  rewrite Forall_fmap in H1, H2, H3, H4.
  destruct H as [H|[H|[H|H]]]; apply Exists_exists in H as (c & Hc & Hge).
  - rewrite Forall_forall in H1. specialize (H1 c Hc). cbn in H1. lia.
  - rewrite Forall_forall in H2. specialize (H2 c Hc). cbn in H2. lia.
  - rewrite Forall_forall in H3. specialize (H3 c Hc). cbn in H3. lia.
  - rewrite Forall_forall in H4. specialize (H4 c Hc). cbn in H4. lia.
Qed.

Lemma Affine_Transform_index_out_of_range_witness :
  Affine_Transform ([10; 40], [40])%Q ([30; 90], [60])%Q [(0, 2)%nat] [(0, 0)%nat]
  = Raise IndexError.
Proof.
  apply Affine_Transform_index_out_of_range.
  right. right. left. constructor. cbn. lia.
Defined.

(** X7.  With exactly one correspondence per axis, indices in range and
    non-zero first coordinates of the first species, [Affine_Transform]
    returns one row per axis: the quotient of the first coordinates of the two
    species as scale, 0 as offset, whatever the indices. *)
Theorem Affine_Transform_single (sulciP1 sulciP2 : list Q * list Q)
    (i1 i2 j1 j2 : nat) (x1 x2 y1 y2 : Q) :
  (i1 < length (fst sulciP1))%nat -> (i2 < length (fst sulciP2))%nat ->
  (j1 < length (snd sulciP1))%nat -> (j2 < length (snd sulciP2))%nat ->
  fst sulciP1 !! 0%nat = Some x1 -> fst sulciP2 !! 0%nat = Some x2 ->
  snd sulciP1 !! 0%nat = Some y1 -> snd sulciP2 !! 0%nat = Some y2 ->
  ~ (x1 == 0)%Q -> ~ (y1 == 0)%Q ->
  Affine_Transform sulciP1 sulciP2 [(i1, i2)] [(j1, j2)]
  = Ok ([((x2 / x1)%Q, 0%Q)], [((y2 / y1)%Q, 0%Q)]).
Proof.
  intros Hi1 Hi2 Hj1 Hj2 Hx1 Hx2 Hy1 Hy2 Nx Ny.
  destruct (lookup_lt_is_Some_2 _ _ Hi1) as [a1 Ha1].
  destruct (lookup_lt_is_Some_2 _ _ Hi2) as [a2 Ha2].
  destruct (lookup_lt_is_Some_2 _ _ Hj1) as [b1 Hb1].
  destruct (lookup_lt_is_Some_2 _ _ Hj2) as [b2 Hb2].
  unfold Affine_Transform. cbn [fmap list_fmap fst snd Affine.take_at length].
  rewrite (idx_Some _ _ _ Ha1), (idx_Some _ _ _ Hb1), (idx_Some _ _ _ Ha2),
    (idx_Some _ _ _ Hb2). run.
  rewrite (idx_Some _ _ _ Hx2), (idx_Some _ _ _ Hx1). run.
  rewrite (div_Ok _ _ Nx). run. cbn [replicate Affine.set0 idx lookup list_lookup].
  run.
  rewrite (idx_Some _ _ _ Hy2), (idx_Some _ _ _ Hy1). run.
  rewrite (div_Ok _ _ Ny). run. reflexivity.
Qed.

Lemma Affine_Transform_single_witness :
  Affine_Transform ([5; 10], [40; 50])%Q ([20; 30], [60; 90])%Q
    [(1, 0)%nat] [(1, 1)%nat]
  = Ok ([((20 / 5)%Q, 0%Q)], [((60 / 40)%Q, 0%Q)]).
Proof.
  apply Affine_Transform_single; try (cbn; lia); try reflexivity; discriminate.
Defined.

(** X8.  What [Affine_Transform] returns never passes the assertion of
    [rescale] together with as many boundaries as correspondences:
    [rescale] raises [AssertionError] on it. *)
Theorem Affine_Transform_fails_rescale_assertion (sulciP1 sulciP2 : list Q * list Q)
    (long_corr lat_corr : list (nat * nat))
    (long_transform lat_transform : list (Q * Q)) :
  Affine_Transform sulciP1 sulciP2 long_corr lat_corr
    = Ok (long_transform, lat_transform) ->
  (forall sulci intervals, length intervals = length long_corr ->
     rescale sulci long_transform intervals = Raise AssertionError) /\
  (forall sulci intervals, length intervals = length lat_corr ->
     rescale sulci lat_transform intervals = Raise AssertionError).
Proof.
  intros H.
  apply Affine_Transform_Ok_inv in H
    as (Hlong & Hlat & x1 & x2 & y1 & y2 & _ & _ & _ & _ & -> & ->).
  split; intros sulci intervals Hlen; unfold rescale;
    rewrite Hlen; [rewrite Hlong|rewrite Hlat]; reflexivity.
Qed.

Lemma Affine_Transform_fails_rescale_assertion_witness :
  rescale [5; 25]%Q [(30 # 10, 0)]%Q [10]%Q = Raise AssertionError.
Proof.
  destruct (Affine_Transform_fails_rescale_assertion ([10], [40])%Q ([30], [60])%Q
              [(0, 0)%nat] [(0, 0)%nat] [(30 # 10, 0)]%Q [(60 # 40, 0)]%Q eq_refl)
    as [H _].
  apply H. reflexivity.
Defined.

(** What the longitude loop returns when it returns. *)
Lemma long_for_Ok_inv (L : Q) (done rest r : list Q) :
  Sphere.long_for L (done ++ rest) (seq (length done) (length rest))
    ((Sphere.long_cell L <$> done) ++ rest) = Ok r ->
  r = Sphere.long_cell L <$> (done ++ rest).
Proof.
  revert done. induction rest as [|x rest IH]; intros done H.
  - cbn in H. injection H as <-. rewrite !app_nil_r. reflexivity.
  - cbn [length seq Sphere.long_for] in H.
    apply bind_Ok in H as (c & Hc & H). apply div_Ok_inv in Hc. subst c.
    rewrite imul_at in H by (rewrite length_fmap; reflexivity). cbn [mbind result_bind] in H.
    rewrite (idx_Some _ _ x) in H by (apply list_lookup_middle; reflexivity).
    cbn [mbind result_bind] in H.
    rewrite iadd_at in H by (rewrite length_fmap; reflexivity). cbn [mbind result_bind] in H.
    specialize (IH (done ++ [x])).
    rewrite length_app, fmap_app, <- !app_assoc in IH.
    cbn [length app fmap list_fmap] in IH.
    rewrite Nat.add_1_r in IH. apply IH. exact H.
Qed.

(** The four arrays [SquareToSphere] returns, cell by cell. *)
Lemma SquareToSphere_Ok_cells (LP1 lP1 LP2 lP2 : Q) (sulciP1 sulciP2 : list Q * list Q)
    (lat_min lat_max : Q) (longS_P1 latS_P1 longS_P2 latS_P2 : list Q) :
  SquareToSphere (LP1, lP1) (LP2, lP2) sulciP1 sulciP2 (lat_min, lat_max) =
    Ok (longS_P1, latS_P1, longS_P2, latS_P2) ->
  longS_P1 = Sphere.long_cell LP1 <$> fst sulciP1 /\
  latS_P1 = Sphere.lat_cell lat_min lat_max (lat_max - lat_min) lP1 <$> snd sulciP1 /\
  longS_P2 = Sphere.long_cell LP2 <$> fst sulciP2 /\
  (length (fst sulciP2) <= length (snd sulciP2))%nat /\
  latS_P2 = (Sphere.lat_cell lat_min lat_max (lat_max - lat_min) lP2
               <$> take (length (fst sulciP2)) (snd sulciP2))
            ++ drop (length (fst sulciP2)) (snd sulciP2).
Proof.
  intros H. pose proof (SquareToSphere_Ok_inv _ _ _ _ _ _ _ _ _ _ _ _ H)
    as (Hla1 & Hn & Hla2).
  unfold SquareToSphere in H.
  apply bind_Ok in H as (lo1 & H1 & H). apply bind_Ok in H as (la1 & _ & H).
  apply bind_Ok in H as (lo2 & H2 & H). apply bind_Ok in H as (la2 & _ & H).
  injection H as <- _ <- _.
  apply (long_for_Ok_inv LP1 [] (fst sulciP1)) in H1.
  apply (long_for_Ok_inv LP2 [] (fst sulciP2)) in H2.
  cbn [app] in H1, H2. auto.
Qed.

Lemma Qpos_neq0 (L : Q) : (0 < L)%Q -> ~ (L == 0)%Q.
Proof. intros HL E. rewrite E in HL. inversion HL. Qed.





(** X12.  Whenever [SquareToSphere] returns, each of the four arrays has the
    length of the list it was copied from. *)
Theorem SquareToSphere_lengths (dimP1 dimP2 : Q * Q)
    (sulciP1 sulciP2 : list Q * list Q) (lat_sphere : Q * Q)
    (longS_P1 latS_P1 longS_P2 latS_P2 : list Q) :
  SquareToSphere dimP1 dimP2 sulciP1 sulciP2 lat_sphere =
    Ok (longS_P1, latS_P1, longS_P2, latS_P2) ->
  length longS_P1 = length (fst sulciP1) /\
  length latS_P1 = length (snd sulciP1) /\
  length longS_P2 = length (fst sulciP2) /\
  length latS_P2 = length (snd sulciP2).
Proof.
  destruct dimP1 as [LP1 lP1], dimP2 as [LP2 lP2], lat_sphere as [lat_min lat_max].
  intros H. apply SquareToSphere_Ok_cells in H as (-> & -> & -> & Hn & ->).
  rewrite length_app, !length_fmap, length_take, length_drop.
  repeat split; lia.
Qed.

Lemma SquareToSphere_lengths_witness :
  length [6300 # 50; 45]%Q = length [40; 45]%Q.
Proof.
  destruct (SquareToSphere_lengths (100, 50)%Q (100, 50)%Q ([10], [40; 45])%Q
              ([10], [40; 45])%Q (30, 150)%Q
              [3600 # 100]%Q [6300 # 50; 6900 # 50]%Q [3600 # 100]%Q
              [6300 # 50; 45]%Q eq_refl)
    as (_ & _ & _ & H).
  exact H.
Defined.

(** X13.  What [SquareToSphere] returns for one species depends on the
    dimensions and the coordinates of that species and on the band only:
    two calls that agree on them agree on the arrays of that species. *)
Theorem SquareToSphere_species_independent (dimP1 dimP2 dimP1' dimP2' : Q * Q)
    (sulciP1 sulciP2 sulciP1' sulciP2' : list Q * list Q) (lat_sphere : Q * Q)
    (longS_P1 latS_P1 longS_P2 latS_P2 : list Q)
    (longS_P1' latS_P1' longS_P2' latS_P2' : list Q) :
  SquareToSphere dimP1 dimP2 sulciP1 sulciP2 lat_sphere =
    Ok (longS_P1, latS_P1, longS_P2, latS_P2) ->
  SquareToSphere dimP1' dimP2' sulciP1' sulciP2' lat_sphere =
    Ok (longS_P1', latS_P1', longS_P2', latS_P2') ->
  (dimP1 = dimP1' -> sulciP1 = sulciP1' ->
   longS_P1 = longS_P1' /\ latS_P1 = latS_P1') /\
  (dimP2 = dimP2' -> sulciP2 = sulciP2' ->
   longS_P2 = longS_P2' /\ latS_P2 = latS_P2').
Proof.
  destruct dimP1 as [LP1 lP1], dimP2 as [LP2 lP2], dimP1' as [LP1' lP1'],
    dimP2' as [LP2' lP2'], lat_sphere as [lat_min lat_max].
  intros H H'.
  apply SquareToSphere_Ok_cells in H as (-> & -> & -> & _ & ->).
  apply SquareToSphere_Ok_cells in H' as (-> & -> & -> & _ & ->).
  split; intros [= <- <-] <-; split; reflexivity.
Qed.

Lemma SquareToSphere_species_independent_witness :
  [3600 # 100]%Q = [3600 # 100]%Q /\ [6300 # 50; 6900 # 50]%Q = [6300 # 50; 6900 # 50]%Q.
Proof.
  destruct (SquareToSphere_species_independent (100, 50)%Q (100, 50)%Q
              (100, 50)%Q (200, 80)%Q
              ([10], [40; 45])%Q ([10], [40; 45])%Q
              ([10], [40; 45])%Q ([50; -100], [40; 60])%Q (30, 150)%Q
              [3600 # 100]%Q [6300 # 50; 6900 # 50]%Q [3600 # 100]%Q
              [6300 # 50; 45]%Q
              [3600 # 100]%Q [6300 # 50; 6900 # 50]%Q
              [18000 # 200; 36000 # 200]%Q [7200 # 80; 9600 # 80]%Q
              eq_refl eq_refl)
    as [H _].
  apply H; reflexivity.
Defined.

Lemma lat_for_past_end (lat_min lat_max range_lat l : Q) (k : nat)
    (done rest : list Q) :
  ~ (l == 0)%Q -> (length rest < k)%nat ->
  Sphere.lat_for lat_min lat_max range_lat l (done ++ rest) (seq (length done) k)
    ((Sphere.lat_cell lat_min lat_max range_lat l <$> done) ++ rest)
  = Raise IndexError.
Proof.
  intros Hl. revert done rest. induction k as [|k IH]; intros done rest Hk; [lia|].
  cbn [seq Sphere.lat_for].
  destruct rest as [|y rest].
  - rewrite idx_None; [reflexivity|]. apply lookup_ge_None. rewrite app_nil_r. lia.
  - cbn [length] in Hk.
    rewrite (idx_Some _ _ y) by (apply list_lookup_middle; reflexivity). run.
    specialize (IH (done ++ [y]) rest).
    rewrite length_app, fmap_app, <- !app_assoc in IH.
    cbn [length app fmap list_fmap] in IH.
    rewrite Nat.add_1_r in IH.
    destruct (Qlt_bool lat_min y && Qlt_bool y lat_max) eqn:E.
    + rewrite (div_Ok _ _ Hl). run.
      rewrite imul_at by (rewrite length_fmap; reflexivity). run.
      rewrite iadd_at by (rewrite length_fmap; reflexivity). run.
      unfold Sphere.lat_cell at 2 in IH. rewrite E in IH. apply IH. lia.
    + unfold Sphere.lat_cell at 2 in IH. rewrite E in IH. apply IH. lia.
Qed.

(** X14.  With non-zero dimensions, [SquareToSphere] raises [IndexError] as
    soon as the second species has more longitudes than latitudes. *)
Theorem SquareToSphere_more_longitudes_raises (LP1 lP1 LP2 lP2 : Q)
    (sulciP1 sulciP2 : list Q * list Q) (lat_sphere : Q * Q) :
  ~ (LP1 == 0)%Q -> ~ (lP1 == 0)%Q -> ~ (LP2 == 0)%Q -> ~ (lP2 == 0)%Q ->
  (length (snd sulciP2) < length (fst sulciP2))%nat ->
  SquareToSphere (LP1, lP1) (LP2, lP2) sulciP1 sulciP2 lat_sphere
  = Raise IndexError.
Proof.
  intros HL1 Hl1 HL2 Hl2 Hn. destruct lat_sphere as [lat_min lat_max].
  unfold SquareToSphere.
  pose proof (long_for_cells LP1 [] (fst sulciP1) HL1) as G1.
  cbn [app length fmap list_fmap] in G1. rewrite G1. run.
  pose proof (lat_for_cells lat_min lat_max (lat_max - lat_min) lP1
                (length (snd sulciP1)) [] (snd sulciP1) Hl1 (le_n _)) as H1.
  cbn [app length fmap list_fmap] in H1. rewrite H1. run.
  pose proof (long_for_cells LP2 [] (fst sulciP2) HL2) as G2.
  cbn [app length fmap list_fmap] in G2. rewrite G2. run.
  pose proof (lat_for_past_end lat_min lat_max (lat_max - lat_min) lP2
                (length (fst sulciP2)) [] (snd sulciP2) Hl2 Hn) as H2.
  cbn [app length fmap list_fmap] in H2. rewrite H2. reflexivity.
Qed.

Lemma SquareToSphere_more_longitudes_raises_witness :
  SquareToSphere (100, 50)%Q (200, 80)%Q ([10], [40])%Q ([50; -100], [40])%Q
    (30, 150)%Q
  = Raise IndexError.
Proof.
  apply SquareToSphere_more_longitudes_raises; try discriminate. cbn. lia.
Defined.
